(** * sh: running shell scripts with injected environment variables

    A shallow embedding of the Go package [sh] (file [sh.go]) and the
    properties of its command construction, argument pairing, scratch
    buffer and default environment.

    Conventions of the embedding:
    - a Go [string] is a [string], a [[]string] a [list string], a
      [[]byte] a [list byte], a [map[string]string] a [gmap string string];
    - a value of interface type [io.Writer] is [option Writer]: [None] is
      the nil interface, [Some w] names a buffer of the [World];
    - a method with a pointer receiver takes the pointed-to record and
      returns the updated one; the package-level pointer
      [defaultEnvironment] lives in a heap of [Environment]s;
    - a Go result [(T, error)] is [error + T]. *)

From Stdlib Require Import ZArith Strings.Byte Strings.Ascii.
From stdpp Require Import base strings list gmap fin_maps pretty.

Open Scope string_scope.
Open Scope list_scope.
Open Scope nat_scope.

(** ** Errors *)

(** The error values that flow through the package: [errors.New] and
    [fmt.Errorf] without verbs build an [errorString]; [*exec.ExitError]
    carries the exit state of the child and the [Stderr] bytes that
    [Cmd.Output] collects. *)
Inductive error :=
  | errorString (s : string)
  | ExitError (ProcessState : Z) (Stderr : list byte).

(** [err.Error()] *)
Definition Error (err : error) : string :=
  match err with
  | errorString s => s
  | ExitError st _ => "exit status " +:+ pretty st
  end.

(** ** Package fmt *)

Module fmt.

(** [fmt.Errorf(format)] with a format free of verbs. *)
Definition Errorf (format : string) : error := errorString format.

End fmt.

(** ** Arg *)

Record Arg := { Key : string; Value : string }.

(** [func (kv Arg) String() string] *)
Definition Arg_String (kv : Arg) : string := Key kv +:+ "=" +:+ Value kv.

(** ** Values of type [any]

    The dynamic values a caller passes in [args ...any]. The type switch
    of [command] separates dynamic type [Arg] from every other dynamic
    type; the others are represented by the operands below. *)
Inductive any :=
  | AnyArg (v : Arg)
  | AnyString (s : string)
  | AnyInt (n : Z)
  | AnyBool (b : bool)
  | AnyNil.

(** [fmt.Sprintf("%v", x)]: the default format of the operand. A string
    prints as itself, an integer in decimal, a boolean as [true] or
    [false], the nil interface as [<nil>]; an [Arg] implements
    [fmt.Stringer] (value receiver), so [%v] prints [v.String()]. *)
Definition Sprintf_v (x : any) : string :=
  match x with
  | AnyArg v => Arg_String v
  | AnyString s => s
  | AnyInt n => pretty n
  | AnyBool b => if b then "true" else "false"
  | AnyNil => "<nil>"
  end.

(** The [default] branch of the type switch [switch v := args[i].(type)]. *)
Definition plain (x : any) : Prop :=
  match x with AnyArg _ => False | _ => True end.

#[global] Instance plain_dec x : Decision (plain x).
Proof. destruct x; simpl; apply _. Defined.

(** ** The pairing loop of [command]

<<
   for i := 0; i < len(args); i++ {
       switch v := args[i].(type) {
       case Arg:
           envs = append(envs, v.String())
       default:
           if i == len(args)-1 {
               return nil, fmt.Errorf("invalid number of arguments")
           }
           key := fmt.Sprintf("%v", args[i])
           val := fmt.Sprintf("%v", args[i+1])
           envs = append(envs, key+"="+val)
           i++
       }
   }
>>
*)

Definition invalidArgs : error := fmt.Errorf "invalid number of arguments".

(** The loop as written, on the index [i]. [fuel] bounds the number of
    iterations; [None] stands for a run that did not finish within the
    fuel or indexed out of range (neither happens: [pairLoop_pairArgs]). *)
Fixpoint pairLoop (fuel : nat) (args : list any) (i : nat) (envs : list string)
  : option (error + list string) :=
  if decide (i < length args) then
    match fuel with
    | 0 => None
    | S fuel =>
        match args !! i with
        | Some (AnyArg v) => pairLoop fuel args (S i) (envs ++ [Arg_String v])
        | Some x =>
            if decide (i = length args - 1) then Some (inl invalidArgs)
            else
              match args !! S i with
              | Some y =>
                  pairLoop fuel args (S (S i))
                    (envs ++ [Sprintf_v x +:+ "=" +:+ Sprintf_v y])
              | None => None
              end
        | None => None
        end
    end
  else Some (inr envs).

(** The same loop by recursion on the part of [args] still to scan
    ([args[i:]]): this is the form [command] uses below. *)
Fixpoint pairArgs (args : list any) (envs : list string) : error + list string :=
  match args with
  | [] => inr envs
  | x :: rest =>
      match x with
      | AnyArg v => pairArgs rest (envs ++ [Arg_String v])
      | _ =>
          match rest with
          | [] => inl invalidArgs
          | y :: rest' =>
              pairArgs rest' (envs ++ [Sprintf_v x +:+ "=" +:+ Sprintf_v y])
          end
      end
  end.

(** ** The world outside the package

    Output sinks are buffers named by a [Writer]; the world also keeps the
    list of the commands run so far, oldest first: for each [Cmd] on which
    [Run] or [Output] ran a child, its argument vector, environment vector
    and directory. *)

Definition Writer := nat.

(** The fields of a [Cmd] that decide what its child does: [Args] (whose
    first entry is the name of the program), [Env] and [Dir], as the
    package leaves them. What the library and the operating system make of
    them (the lookup of the name in [PATH], the environment the child
    really receives) is part of [Process] below. *)
Record Invocation := {
  iArgs : list string;
  iEnv : list string;
  iDir : string
}.

Record World := {
  buffers : gmap Writer (list byte);
  spawned : list Invocation
}.

(** [dst.Write(data)]; a nil sink discards. *)
Definition write (dst : option Writer) (data : list byte) (w : World) : World :=
  match dst with
  | None => w
  | Some k =>
      {| buffers := <[k := default [] (buffers w !! k) ++ data]> (buffers w);
         spawned := spawned w |}
  end.

Definition spawn (i : Invocation) (w : World) : World :=
  {| buffers := buffers w; spawned := spawned w ++ [i] |}.

(** The two output streams of a child. *)
Inductive Stream := StdoutStream | StderrStream.

(** What a child process does: the chunks of bytes it writes, each to its
    standard output or to its standard error, in the order it writes them,
    and the error [Wait] reports ([None]: exit status 0). A child that
    cannot be started writes nothing and has an error. *)
Record Outcome := {
  chunks : list (Stream * list byte);
  status : option error
}.

Definition streamBytes (s : Stream) (chs : list (Stream * list byte)) : list byte :=
  concat (omap (λ ch, match s, ch.1 with
                      | StdoutStream, StdoutStream | StderrStream, StderrStream =>
                          Some ch.2
                      | _, _ => None
                      end) chs).

(** All the bytes of the standard output, and of the standard error. *)
Definition out (o : Outcome) : list byte := streamBytes StdoutStream (chunks o).
Definition err (o : Outcome) : list byte := streamBytes StderrStream (chunks o).

(** The chunks reach the sinks in the order they are written: the
    standard output goes to [so], the standard error to [se] (nil:
    discarded). When [so] and [se] are the same sink, it holds the bytes of
    both streams in write order. *)
Definition deliver (so se : option Writer) (chs : list (Stream * list byte))
    (w : World) : World :=
  foldl (λ w ch, write (match ch.1 with
                        | StdoutStream => so
                        | StderrStream => se
                        end) ch.2 w) w chs.

(** What the Go runtime and the operating system decide for one call:
    - [Environ]: the result of [os.Environ()];
    - [mapRange m]: the order in which [for k, v := range m] visits the
      entries of [m] (unspecified by the language, every entry once);
    - [Process]: the behaviour of the child run for a command (it covers
      the lookup of the program, the environment the library hands to the
      child, and cancellation by the context);
    - [saveStderr]: what [Cmd.Output] keeps of the child's standard error
      when it attaches it to an [ExitError]. *)
Record Runtime := {
  Environ : list string;
  mapRange : gmap string string → list (string * string);
  mapRange_perm : ∀ m, mapRange m ≡ₚ map_to_list m;
  Process : Invocation → Outcome;
  saveStderr : list byte → list byte
}.

(** ** Package os/exec: the process-execution collaborator

    The part of [exec.Cmd] that [sh.go] touches, after the behaviour of
    [exec.CommandContext], [Cmd.Run] and [Cmd.Output] in the Go standard
    library. The field [Path], which [exec.CommandContext] fills by a
    lookup of the name and which [sh.go] neither reads nor writes, is left
    out. The child is a function of the command's arguments, environment
    vector and directory, not of where its output goes. *)
Module exec.

Record Cmd := {
  Args : list string;
  Env : list string;
  Dir : string;
  Stdout : option Writer;
  Stderr : option Writer
}.

(** [exec.CommandContext(ctx, name, arg...)]: [Args] is a fresh slice
    holding [name] followed by [arg]. *)
Definition CommandContext (name : string) (arg : list string) : Cmd :=
  {| Args := name :: arg; Env := []; Dir := "";
     Stdout := None; Stderr := None |}.

Definition withStdout (o : option Writer) (c : Cmd) : Cmd :=
  {| Args := Args c; Env := Env c; Dir := Dir c;
     Stdout := o; Stderr := Stderr c |}.

Definition withStderr (o : option Writer) (c : Cmd) : Cmd :=
  {| Args := Args c; Env := Env c; Dir := Dir c;
     Stdout := Stdout c; Stderr := o |}.

Definition withDir (d : string) (c : Cmd) : Cmd :=
  {| Args := Args c; Env := Env c; Dir := d;
     Stdout := Stdout c; Stderr := Stderr c |}.

Definition withEnv (envs : list string) (c : Cmd) : Cmd :=
  {| Args := Args c; Env := envs; Dir := Dir c;
     Stdout := Stdout c; Stderr := Stderr c |}.

Definition invocation (c : Cmd) : Invocation :=
  {| iArgs := Args c; iEnv := Env c; iDir := Dir c |}.

(** [c.Run()]: runs the child, copies its standard output and standard
    error to [c.Stdout] and [c.Stderr] (nil: discarded), waits. *)
Definition Cmd_Run (rt : Runtime) (c : Cmd) (w : World) : World * option error :=
  let o := Process rt (invocation c) in
  (deliver (Stdout c) (Stderr c) (chunks o) (spawn (invocation c) w), status o).

Definition stdoutAlreadySet : error := errorString "exec: Stdout already set".

(** [c.Output()]: refuses a command whose [Stdout] is set; otherwise
    runs it with [Stdout] a fresh buffer and returns the bytes of that
    buffer. When [c.Stderr] is nil the child's standard error is saved and
    attached to a returned [ExitError]. *)
Definition Cmd_Output (rt : Runtime) (c : Cmd) (w : World)
  : World * (list byte * option error) :=
  match Stdout c with
  | Some _ => (w, ([], Some stdoutAlreadySet))
  | None =>
      let captureErr := bool_decide (Stderr c = None) in
      let o := Process rt (invocation c) in
      let w' := deliver None (Stderr c) (chunks o) (spawn (invocation c) w) in
      let e :=
        match status o with
        | Some (ExitError st old) =>
            Some (ExitError st (if captureErr then saveStderr rt (err o) else old))
        | s => s
        end in
      (w', (out o, e))
  end.

End exec.

(** ** Shell *)

(** The interface [Shell]: a value of it answers [Name()], [Prefix()] and
    [Suffix()]. *)
Record Shell := {
  Name : string;
  Prefix : list string;
  Suffix : list string
}.

(** [type bash struct{}] with its three methods. *)
Definition bash : Shell := {| Name := "bash"; Prefix := ["-c"]; Suffix := [] |}.

(** [type sh struct{}] with its three methods. *)
Definition sh : Shell := {| Name := "sh"; Prefix := ["-c"]; Suffix := [] |}.

Definition Bash : Shell := bash.
Definition Sh : Shell := sh.

(** ** Environment *)

Record Environment := {
  shell : Shell;
  stdout : option Writer;
  stderr : option Writer;
  env : gmap string string;
  workingDir : string;
  argBuffer : list string
}.

Definition Option := Environment → Environment.

Definition WithStdout (w : option Writer) : Option := λ e,
  {| shell := shell e; stdout := w; stderr := stderr e; env := env e;
     workingDir := workingDir e; argBuffer := argBuffer e |}.

Definition WithStderr (w : option Writer) : Option := λ e,
  {| shell := shell e; stdout := stdout e; stderr := w; env := env e;
     workingDir := workingDir e; argBuffer := argBuffer e |}.

Definition WithEnv (m : gmap string string) : Option := λ e,
  {| shell := shell e; stdout := stdout e; stderr := stderr e; env := m;
     workingDir := workingDir e; argBuffer := argBuffer e |}.

Definition WithWorkingDir (dir : string) : Option := λ e,
  {| shell := shell e; stdout := stdout e; stderr := stderr e; env := env e;
     workingDir := dir; argBuffer := argBuffer e |}.

(** [func NewEnvironment(shell Shell, opts ...Option) *Environment]: the
    record the returned pointer designates. *)
Definition NewEnvironment (s : Shell) (opts : list Option) : Environment :=
  foldl (λ e opt, opt e)
    {| shell := s; stdout := None; stderr := None; env := ∅;
       workingDir := ""; argBuffer := [] |}
    opts.

Definition withArgBuffer (buf : list string) (e : Environment) : Environment :=
  {| shell := shell e; stdout := stdout e; stderr := stderr e; env := env e;
     workingDir := workingDir e; argBuffer := buf |}.

(** [func (e *Environment) cleanup()]: [e.argBuffer = e.argBuffer[:0]] *)
Definition Environment_cleanup (e : Environment) : Environment :=
  withArgBuffer (take 0 (argBuffer e)) e.

(** [func (e *Environment) command(ctx, script, args...)], of result type
    [*exec.Cmd, error]. Returns the receiver after the call as well:
    [e.argBuffer] is assigned before the arguments are looked at. The
    index arithmetic of the loop over [args] is that of [pairLoop]; its
    result is computed by [pairArgs]. *)
Definition Environment_command (rt : Runtime) (e : Environment)
    (script : string) (args : list any) : Environment * (error + exec.Cmd) :=
  let buf := argBuffer e ++ Prefix (shell e) in
  let buf := buf ++ [script] in
  let suf := Suffix (shell e) in
  let buf := if decide (0 < length suf) then buf ++ suf else buf in
  let e' := withArgBuffer buf e in
  let cmd := exec.CommandContext (Name (shell e)) buf in
  let cmd := exec.withStdout (stdout e) cmd in
  let cmd := exec.withStderr (stderr e) cmd in
  let cmd := if decide (workingDir e ≠ "") then exec.withDir (workingDir e) cmd
             else cmd in
  let envs := Environ rt in
  let envs :=
    if decide (0 < size (env e)) then
      foldl (λ envs kv, envs ++ [kv.1 +:+ "=" +:+ kv.2]) envs (mapRange rt (env e))
    else envs in
  match pairArgs args envs with
  | inl err => (e', inl err)
  | inr envs => (e', inr (exec.withEnv envs cmd))
  end.

(** [func (e *Environment) Run(ctx, script, args...) error], with the
    deferred [e.cleanup()] run on both returns. *)
Definition Environment_Run (rt : Runtime) (e : Environment)
    (script : string) (args : list any) (w : World)
  : Environment * World * option error :=
  match Environment_command rt e script args with
  | (e', inl err) => (Environment_cleanup e', w, Some err)
  | (e', inr cmd) =>
      let '(w', r) := exec.Cmd_Run rt cmd w in
      (Environment_cleanup e', w', r)
  end.

(** [func (e *Environment) Output(ctx, script, args...) ([]byte, error)] *)
Definition Environment_Output (rt : Runtime) (e : Environment)
    (script : string) (args : list any) (w : World)
  : Environment * World * (list byte * option error) :=
  match Environment_command rt e script args with
  | (e', inl err) => (Environment_cleanup e', w, ([], Some err))
  | (e', inr cmd) =>
      let '(w', r) := exec.Cmd_Output rt cmd w in
      (Environment_cleanup e', w', r)
  end.

(** ** Sequences of calls on one Environment *)

Inductive Call :=
  | CallRun (rt : Runtime) (script : string) (args : list any)
  | CallOutput (rt : Runtime) (script : string) (args : list any).

(** One call of [e.Run] or [e.Output]; the returned error and bytes are
    dropped, the receiver and the world are kept. *)
Definition call (c : Call) (e : Environment) (w : World) : Environment * World :=
  match c with
  | CallRun rt script args => (Environment_Run rt e script args w).1
  | CallOutput rt script args => (Environment_Output rt e script args w).1
  end.

Fixpoint calls (cs : list Call) (e : Environment) (w : World) : Environment * World :=
  match cs with
  | [] => (e, w)
  | c :: cs => let '(e', w') := call c e w in calls cs e' w'
  end.

(** ** The default Environment

    [var defaultEnvironment = NewEnvironment(&bash{})] is a pointer. The
    package state is a heap of [Environment]s and that pointer ([None]:
    nil). *)

Definition loc := nat.

Record Package := {
  heap : gmap loc Environment;
  defaultEnvironment : option loc
}.

(** The state after package initialisation. *)
Definition init : Package :=
  {| heap := {[ 0 := NewEnvironment bash [] ]}; defaultEnvironment := Some 0 |}.

(** A caller's own [NewEnvironment(s, opts...)]: the new record is stored
    at an unused address, which is returned. *)
Definition new (s : Shell) (opts : list Option) (p : Package) : loc * Package :=
  let l := fresh (dom (heap p)) in
  (l, {| heap := <[l := NewEnvironment s opts]> (heap p);
         defaultEnvironment := defaultEnvironment p |}).

(** [func SetDefaultEnvironment(env *Environment)] *)
Definition SetDefaultEnvironment (env : option loc) (p : Package) : Package :=
  {| heap := heap p; defaultEnvironment := env |}.

(** [func Run(ctx, script, args...) error]. [None]: the call panics on a
    nil [defaultEnvironment]. *)
Definition Run (rt : Runtime) (script : string) (args : list any)
    (p : Package) (w : World) : option (Package * World * option error) :=
  l ← defaultEnvironment p;
  e ← heap p !! l;
  let '(e', w', r) := Environment_Run rt e script args w in
  Some ({| heap := <[l := e']> (heap p);
           defaultEnvironment := defaultEnvironment p |}, w', r).

(** [func Output(ctx, script, args...) ([]byte, error)] *)
Definition Output (rt : Runtime) (script : string) (args : list any)
    (p : Package) (w : World)
  : option (Package * World * (list byte * option error)) :=
  l ← defaultEnvironment p;
  e ← heap p !! l;
  let '(e', w', r) := Environment_Output rt e script args w in
  Some ({| heap := <[l := e']> (heap p);
           defaultEnvironment := defaultEnvironment p |}, w', r).

(** ** A concrete runtime, for the examples

    The inherited environment is [PATH=/bin]; maps are visited in the
    order of [map_to_list]; the child prints [hello] on its standard
    output, [oops] on its standard error, and exits with status 0. *)

Definition helloProcess (i : Invocation) : Outcome :=
  {| chunks := [ (StdoutStream, String.list_byte_of_string "hello");
                 (StderrStream, String.list_byte_of_string "oops") ];
     status := None |}.

Definition rt0 : Runtime :=
  {| Environ := ["PATH=/bin"];
     mapRange := map_to_list;
     mapRange_perm := λ m, reflexivity (map_to_list m);
     Process := helloProcess;
     saveStderr := id |}.

Definition w0 : World := {| buffers := ∅; spawned := [] |}.

(** ** Vocabulary of the properties *)

(** [prepend envs r]: the entries [envs] put in front of a successful
    result. *)
Definition prepend (envs : list string) (r : error + list string)
  : error + list string :=
  match r with
  | inl e => inl e
  | inr ps => inr (envs ++ ps)
  end.

(** [scans args i]: the loop of [command] begins an iteration with index
    [i], that is, it reaches [args[i]] as the current item (or leaves the
    loop there, when [i = len(args)]). *)
Inductive scans (args : list any) : nat → Prop :=
  | scans_start : scans args 0
  | scans_Arg i v :
      scans args i → args !! i = Some (AnyArg v) → scans args (S i)
  | scans_pair i x y :
      scans args i → args !! i = Some x → plain x → args !! S i = Some y →
      scans args (S (S i)).

(** The entry [k+"="+v] of one mapping of [e.env]. *)
Definition entry (kv : string * string) : string := kv.1 +:+ "=" +:+ kv.2.

(** The entries that [command] appends for [e.env], in the order of the
    [range] loop. *)
Definition extraEnv (rt : Runtime) (e : Environment) : list string :=
  entry <$> mapRange rt (env e).

(** The argument vector [name, prefix..., script, suffix...]. *)
Definition shellArgs (s : Shell) (script : string) : list string :=
  Name s :: Prefix s ++ [script] ++ Suffix s.

(** The four options a caller can build. *)
Inductive exported : Option → Prop :=
  | exported_WithStdout w : exported (WithStdout w)
  | exported_WithStderr w : exported (WithStderr w)
  | exported_WithEnv m : exported (WithEnv m)
  | exported_WithWorkingDir dir : exported (WithWorkingDir dir).

(** An argument as the caller means it: an [Arg], or a key and a value
    passed one after the other. *)
Inductive Item :=
  | ItemArg (v : Arg)
  | ItemPair (k v : any).

(** The one or two entries of [args] that an item takes. *)
Definition itemArgs (it : Item) : list any :=
  match it with
  | ItemArg v => [AnyArg v]
  | ItemPair k v => [k; v]
  end.

(** The environment entry an item stands for. *)
Definition itemEntry (it : Item) : string :=
  match it with
  | ItemArg v => Key v +:+ "=" +:+ Value v
  | ItemPair k v => Sprintf_v k +:+ "=" +:+ Sprintf_v v
  end.

(** The key and the value of a pair are plain (non-[Arg]) items. *)
Definition plainItem (it : Item) : Prop :=
  match it with
  | ItemArg _ => True
  | ItemPair k v => plain k ∧ plain v
  end.


(** Every [Arg] item of a list that [command] accepts is an entry of its
    own in the result. *)
Definition every_Arg_emitted (args : list any) : Prop :=
  ∀ ps, pairArgs args [] = inr ps →
  ∀ i v, args !! i = Some (AnyArg v) → Arg_String v ∈ ps.

(** An Environment with a stdout sink and a stderr sink. *)
Definition envSinks : Environment :=
  NewEnvironment Bash [WithStdout (Some 1); WithStderr (Some 2)].

Definition argKV : Arg := {| Key := "K"; Value := "V" |}.

(** [hasEquals s]: the byte [=] occurs in [s]. *)
Fixpoint hasEquals (s : string) : bool :=
  match s with
  | EmptyString => false
  | String c s => if Ascii.eqb c "="%char then true else hasEquals s
  end.

(** * Properties *)

(** ** The pairing loop *)

(** Induction along the steps of the scan: an [Arg] advances by one, a
    plain item with a successor by two, a plain item alone ends it. *)
Lemma scan_ind (P : list any → Prop) :
  P [] →
  (∀ v rest, P rest → P (AnyArg v :: rest)) →
  (∀ x, plain x → P [x]) →
  (∀ x y rest, plain x → P rest → P (x :: y :: rest)) →
  ∀ args, P args.
Proof.
  intros Hnil Harg Hone Htwo args.
  cut (P args ∧ ∀ x, P (x :: args)); [tauto|].
  induction args as [|y rest [IH1 IH2]]; split; try done.
  - intros [v| | | |]; [by apply Harg|by apply Hone..].
  - intros x. destruct (decide (plain x)) as [Hx|Hx]; [by apply Htwo|].
    destruct x; simpl in Hx; try tauto. by apply Harg.
Qed.

Lemma prepend_prepend a b r : prepend a (prepend b r) = prepend (a ++ b) r.
Proof. destruct r; simpl; [done|]. by rewrite (assoc_L (++)). Qed.

(** The entries already collected are kept in front, untouched. *)
Lemma pairArgs_acc args envs : pairArgs args envs = prepend envs (pairArgs args []).
Proof.
  revert envs. induction args as [|v rest IH|x Hx|x y rest Hx IH] using scan_ind;
    intros envs.
  - simpl. by rewrite (right_id_L [] (++)).
  - simpl. rewrite (IH (envs ++ _)), (IH [_]). by rewrite prepend_prepend.
  - by destruct x.
  - destruct x; try done; simpl;
      rewrite (IH (envs ++ _)), (IH [_]); by rewrite prepend_prepend.
Qed.

(** A prefix that is scanned to its end hands over to the rest. *)
Lemma pairArgs_app pre post envs a :
  pairArgs pre envs = inr a → pairArgs (pre ++ post) envs = pairArgs post a.
Proof.
  revert envs. induction pre as [|v rest IH|x Hx|x y rest Hx IH] using scan_ind;
    intros envs Hpre.
  - simpl in *. congruence.
  - simpl in *. by apply IH.
  - by destruct x.
  - destruct x; try done; simpl in *; by apply IH.
Qed.

(** The loop on the index and the recursion on [args[i:]] agree, and
    [length args - i] iterations are enough. *)
Lemma pairLoop_pairArgs fuel (args : list any) i envs :
  length args - i ≤ fuel →
  pairLoop fuel args i envs = Some (pairArgs (drop i args) envs).
Proof.
  revert i envs. induction fuel as [|fuel IH]; intros i envs Hfuel.
  - simpl. case_decide; [lia|]. by rewrite drop_ge by lia.
  - simpl. case_decide as Hi; [|by rewrite drop_ge by lia].
    destruct (lookup_lt_is_Some_2 args i Hi) as [x Hx].
    rewrite Hx, (drop_S _ _ _ Hx).
    destruct (decide (i = length args - 1)) as [Hlast|Hlast].
    + rewrite (drop_ge args (S i)) by lia. destruct x; simpl; try done.
      rewrite IH by lia. by rewrite drop_ge by lia.
    + destruct (lookup_lt_is_Some_2 args (S i)) as [y Hy]; [lia|].
      rewrite Hy, (drop_S _ _ _ Hy).
      destruct x; simpl; rewrite ?IH by lia; try done.
      by rewrite (drop_S _ _ _ Hy).
Qed.

(** The loop of the source terminates with the result of [pairArgs]. *)
Lemma pairLoop_total (args : list any) envs :
  pairLoop (length args) args 0 envs = Some (pairArgs args envs).
Proof. by rewrite pairLoop_pairArgs by lia. Qed.

(** ** Positions reached by the scan *)

Lemma scans_le (args : list any) i : scans args i → i ≤ length args.
Proof.
  induction 1 as [|i v _ _ Hi|i x y _ _ _ _ Hy]; [lia|..].
  - apply lookup_lt_Some in Hi. lia.
  - apply lookup_lt_Some in Hy. lia.
Qed.

(** The items before a position the scan reaches are paired among
    themselves. *)
Lemma scans_take (args : list any) i :
  scans args i → ∃ a, pairArgs (take i args) [] = inr a.
Proof.
  induction 1 as [|i v _ [a Ha] Hi|i x y _ [a Ha] Hx Hplain Hy].
  - by exists [].
  - exists (a ++ [Arg_String v]).
    rewrite (take_S_r _ _ _ Hi). by rewrite (pairArgs_app _ _ _ _ Ha).
  - exists (a ++ [Sprintf_v x +:+ "=" +:+ Sprintf_v y]).
    rewrite (take_S_r _ _ _ Hy), (take_S_r _ _ _ Hx), <-(assoc_L (++)).
    rewrite (pairArgs_app _ _ _ _ Ha). by destruct x.
Qed.

(** From such a position on, the scan goes on with the items that are
    left, whatever came before. *)
Lemma pairArgs_from (args : list any) i a envs :
  pairArgs (take i args) [] = inr a →
  pairArgs args envs = pairArgs (drop i args) (envs ++ a).
Proof.
  intros Ha. rewrite <-(take_drop i args) at 1.
  apply pairArgs_app. by rewrite pairArgs_acc, Ha.
Qed.

(** ** What [command] builds *)

Lemma foldl_entries envs kvs :
  foldl (λ envs kv, envs ++ [kv.1 +:+ "=" +:+ kv.2]) envs kvs
  = envs ++ (entry <$> kvs).
Proof.
  revert envs. induction kvs as [|kv kvs IH]; intros envs; simpl.
  - by rewrite (right_id_L [] (++)).
  - rewrite IH. by rewrite <-(assoc_L (++)).
Qed.

Lemma mapRange_size rt (m : gmap string string) :
  length (mapRange rt m) = size m.
Proof. by rewrite (mapRange_perm rt m), length_map_to_list. Qed.

Lemma command_spec rt e script args :
  Environment_command rt e script args =
    (withArgBuffer
       (argBuffer e ++ Prefix (shell e) ++ [script] ++ Suffix (shell e)) e,
     match pairArgs args [] with
     | inl err => inl err
     | inr ps =>
         inr {| exec.Args :=
                  Name (shell e)
                  :: argBuffer e ++ Prefix (shell e) ++ [script] ++ Suffix (shell e);
                exec.Env := Environ rt ++ extraEnv rt e ++ ps;
                exec.Dir := workingDir e;
                exec.Stdout := stdout e;
                exec.Stderr := stderr e |}
     end).
Proof.
  unfold Environment_command.
  set (buf := if decide (0 < length (Suffix (shell e))) then _ else _).
  assert (buf = argBuffer e ++ Prefix (shell e) ++ [script] ++ Suffix (shell e))
    as ->.
  { unfold buf. destruct (Suffix (shell e)) as [|s suf]; simpl.
    - by rewrite <-(assoc_L (++)).
    - by rewrite <-!(assoc_L (++)). }
  set (envs := if decide (0 < size (env e)) then _ else _).
  assert (envs = Environ rt ++ extraEnv rt e) as ->.
  { unfold envs, extraEnv. rewrite foldl_entries. case_decide as Hsize; [done|].
    assert (mapRange rt (env e) = []) as ->;
      [|simpl; by rewrite (right_id_L [] (++))].
    apply length_zero_iff_nil. rewrite mapRange_size. lia. }
  rewrite pairArgs_acc. destruct (pairArgs args []) as [err|ps]; simpl; [done|].
  rewrite <-(assoc_L (++)). unfold exec.CommandContext, exec.withEnv.
  case_decide as Hdir; simpl; [done|].
  destruct (decide (workingDir e = "")) as [->|]; [done|tauto].
Qed.

Lemma cleanup_withArgBuffer buf e :
  Environment_cleanup (withArgBuffer buf e) = withArgBuffer [] e.
Proof. done. Qed.

Lemma Run_spec rt e script args w :
  Environment_Run rt e script args w =
    match (Environment_command rt e script args).2 with
    | inl err => (withArgBuffer [] e, w, Some err)
    | inr cmd => let '(w', r) := exec.Cmd_Run rt cmd w in (withArgBuffer [] e, w', r)
    end.
Proof.
  unfold Environment_Run. rewrite command_spec. simpl.
  by destruct (pairArgs args []).
Qed.

Lemma Output_spec rt e script args w :
  Environment_Output rt e script args w =
    match (Environment_command rt e script args).2 with
    | inl err => (withArgBuffer [] e, w, ([], Some err))
    | inr cmd =>
        let '(w', r) := exec.Cmd_Output rt cmd w in (withArgBuffer [] e, w', r)
    end.
Proof.
  unfold Environment_Output. rewrite command_spec. simpl.
  by destruct (pairArgs args []).
Qed.

(** ** Writes to the world *)

Lemma spawned_write dst data w : spawned (write dst data w) = spawned w.
Proof. by destruct dst. Qed.

Lemma write_lookup_ne dst data w (k : Writer) :
  dst ≠ Some k → buffers (write dst data w) !! k = buffers w !! k.
Proof.
  destruct dst as [k'|]; simpl; [|done]. intros Hk.
  apply lookup_insert_ne. congruence.
Qed.

Lemma write_lookup_eq data w (k : Writer) :
  default [] (buffers (write (Some k) data w) !! k)
  = default [] (buffers w !! k) ++ data.
Proof. simpl. by rewrite lookup_insert_eq. Qed.

Lemma write_extends dst data w (k : Writer) old :
  buffers w !! k = Some old →
  ∃ more, buffers (write dst data w) !! k = Some (old ++ more).
Proof.
  intros Hold. destruct dst as [k'|]; simpl.
  - destruct (decide (k' = k)) as [->|Hne].
    + exists data. by rewrite lookup_insert_eq, Hold.
    + exists []. by rewrite lookup_insert_ne, (right_id_L [] (++)).
  - exists []. by rewrite (right_id_L [] (++)).
Qed.

Lemma spawned_deliver so se chs w : spawned (deliver so se chs w) = spawned w.
Proof.
  revert w. induction chs as [|ch chs IH]; intros w; [done|]. simpl.
  by rewrite IH, spawned_write.
Qed.

Lemma deliver_lookup_ne so se chs w (k : Writer) :
  so ≠ Some k → se ≠ Some k →
  buffers (deliver so se chs w) !! k = buffers w !! k.
Proof.
  intros Hso Hse. revert w. induction chs as [|[[] data] chs IH]; intros w;
    [done|..]; simpl; rewrite IH; by apply write_lookup_ne.
Qed.

Lemma deliver_extends so se chs w (k : Writer) old :
  buffers w !! k = Some old →
  ∃ more, buffers (deliver so se chs w) !! k = Some (old ++ more).
Proof.
  revert w old. induction chs as [|ch chs IH]; intros w old Hold; simpl.
  - exists []. by rewrite (right_id_L [] (++)).
  - destruct (write_extends (match ch.1 with
                             | StdoutStream => so
                             | StderrStream => se
                             end) ch.2 w k old Hold) as [d1 Hd1].
    destruct (IH _ _ Hd1) as [d2 Hd2]. exists (d1 ++ d2).
    by rewrite Hd2, (assoc_L (++)).
Qed.

Lemma deliver_cons so se ch chs w :
  deliver so se (ch :: chs) w
  = deliver so se chs (write (match ch.1 with
                              | StdoutStream => so
                              | StderrStream => se
                              end) ch.2 w).
Proof. done. Qed.

(** A sink of its own gets the bytes of its stream, in order. *)
Lemma deliver_stdout se chs w (k : Writer) :
  se ≠ Some k →
  default [] (buffers (deliver (Some k) se chs w) !! k)
  = default [] (buffers w !! k) ++ streamBytes StdoutStream chs.
Proof.
  intros Hse. revert w. induction chs as [|[st data] chs IH]; intros w.
  - unfold streamBytes. simpl. by rewrite (right_id_L [] (++)).
  - rewrite deliver_cons, IH. destruct st; cbn [fst snd].
    + rewrite write_lookup_eq, <-(assoc_L (++)). done.
    + by rewrite write_lookup_ne.
Qed.

Lemma deliver_stderr so chs w (k : Writer) :
  so ≠ Some k →
  default [] (buffers (deliver so (Some k) chs w) !! k)
  = default [] (buffers w !! k) ++ streamBytes StderrStream chs.
Proof.
  intros Hso. revert w. induction chs as [|[st data] chs IH]; intros w.
  - unfold streamBytes. simpl. by rewrite (right_id_L [] (++)).
  - rewrite deliver_cons, IH. destruct st; cbn [fst snd].
    + by rewrite write_lookup_ne.
    + rewrite write_lookup_eq, <-(assoc_L (++)). done.
Qed.

(** One sink for both streams gets every chunk, in write order. *)
Lemma deliver_both chs w (k : Writer) :
  default [] (buffers (deliver (Some k) (Some k) chs w) !! k)
  = default [] (buffers w !! k) ++ concat chs.*2.
Proof.
  revert w. induction chs as [|[st data] chs IH]; intros w.
  - simpl. by rewrite (right_id_L [] (++)).
  - rewrite deliver_cons, IH. destruct st; cbn [fst snd];
      rewrite write_lookup_eq, <-(assoc_L (++)); done.
Qed.

(** A scan that ends at [len(args)] has paired every item. *)
Lemma scans_accepts (args : list any) :
  scans args (length args) → ∃ ps, pairArgs args [] = inr ps.
Proof.
  intros Hscan. destruct (scans_take _ _ Hscan) as [a Ha].
  rewrite take_ge in Ha by lia. by exists a.
Qed.

(** ** Rejected argument lists *)

(** C2: when the left-to-right scan reaches a plain (non-[Arg]) item in
    the last position, the loop of [command] returns the error whose
    message is exactly "invalid number of arguments", [command] fails with
    it, and [Run] and [Output] return it with the world unchanged: no child
    process is started, and the execution collaborator is not called. *)
Theorem trailing_plain_item_rejected rt e script (args : list any) i x w :
  scans args i → args !! i = Some x → plain x → S i = length args →
  Error invalidArgs = "invalid number of arguments" ∧
  pairLoop (length args) args 0 (Environ rt ++ extraEnv rt e) = Some (inl invalidArgs) ∧
  (Environment_command rt e script args).2 = inl invalidArgs ∧
  Environment_Run rt e script args w = (withArgBuffer [] e, w, Some invalidArgs) ∧
  Environment_Output rt e script args w =
    (withArgBuffer [] e, w, ([], Some invalidArgs)).
Proof.
  intros Hscan Hx Hplain Hlast.
  assert (∀ envs, pairArgs args envs = inl invalidArgs) as Hfail.
  { intros envs. destruct (scans_take _ _ Hscan) as [a Ha].
    rewrite (pairArgs_from _ i a) by done.
    rewrite (drop_S _ _ _ Hx), drop_ge by lia. by destruct x. }
  assert ((Environment_command rt e script args).2 = inl invalidArgs) as Hcmd.
  { rewrite command_spec. simpl. by rewrite Hfail. }
  split; [done|]. split; [by rewrite pairLoop_total, Hfail|]. split; [done|].
  by rewrite Run_spec, Output_spec, Hcmd.
Qed.

(** ** Plain key/value lists *)

Lemma plain_pairs (args : list any) n :
  Forall plain args → length args = 2 * n →
  ∃ ps, pairArgs args [] = inr ps ∧ length ps = n ∧
    ∀ j, j < n → ∃ x y,
      args !! (2 * j) = Some x ∧ args !! (2 * j + 1) = Some y ∧
      ps !! j = Some (Sprintf_v x +:+ "=" +:+ Sprintf_v y).
Proof.
  revert n. induction args as [|v rest IH|x Hx|x y rest Hx IH] using scan_ind;
    intros n Hall Hlen.
  - exists []. repeat split; [simpl in *; lia|]. intros j Hj. simpl in *. lia.
  - by inversion_clear Hall.
  - simpl in *. lia.
  - destruct n as [|n]; [simpl in *; lia|].
    destruct (IH n) as (ps & Hps & Hn & Hat).
    { by do 2 apply Forall_cons_1, proj2 in Hall. }
    { simpl in *. lia. }
    exists ((Sprintf_v x +:+ "=" +:+ Sprintf_v y) :: ps). split.
    { destruct x; try done; simpl; by rewrite pairArgs_acc, Hps. }
    split; [simpl; lia|]. intros [|j] Hj.
    + by exists x, y.
    + destruct (Hat j) as (x' & y' & Hx' & Hy' & Hj'); [lia|].
      exists x', y'. replace (2 * S j) with (S (S (2 * j))) by lia. done.
Qed.

(** C4: for an argument list of even length N made of plain (non-[Arg])
    items only, the loop of [command] succeeds and appends exactly N/2
    entries; the j-th entry is [key=value] built from the items at
    positions 2j and 2j+1, each printed with the default format [%v], so
    the entries come in the order of the input. *)
Theorem even_plain_args_pair_up rt e script (args : list any) :
  Forall plain args → Nat.Even (length args) →
  ∃ ps cmd,
    pairLoop (length args) args 0 [] = Some (inr ps) ∧
    (Environment_command rt e script args).2 = inr cmd ∧
    exec.Env cmd = Environ rt ++ extraEnv rt e ++ ps ∧
    length ps = length args / 2 ∧
    ∀ j, j < length args / 2 → ∃ x y,
      args !! (2 * j) = Some x ∧ args !! (2 * j + 1) = Some y ∧
      ps !! j = Some (Sprintf_v x +:+ "=" +:+ Sprintf_v y).
Proof.
  intros Hall [n Hn].
  destruct (plain_pairs args n Hall Hn) as (ps & Hps & Hlen & Hat).
  assert (length args / 2 = n) as ->.
  { rewrite Hn, Nat.mul_comm. by apply Nat.div_mul. }
  exists ps. eexists. rewrite pairLoop_total, command_spec, Hps. simpl.
  repeat split; done.
Qed.

(** ** The environment vector *)

(** C5: when [command] succeeds, [cmd.Env] is the result of
    [os.Environ()], followed by one [key=value] entry for each mapping of
    [e.env] (in the order the [range] loop visits them, each mapping once),
    followed by the entries of the arguments in the order the loop emits
    them. Nothing is dropped or merged: the length of the vector is the sum
    of the three lengths, whatever keys repeat. *)
Theorem environment_vector rt e script args e' cmd :
  Environment_command rt e script args = (e', inr cmd) →
  ∃ kvs ps,
    kvs ≡ₚ map_to_list (env e) ∧
    pairArgs args [] = inr ps ∧
    exec.Env cmd = Environ rt ++ (entry <$> kvs) ++ ps ∧
    length (exec.Env cmd) = length (Environ rt) + size (env e) + length ps.
Proof.
  rewrite command_spec. intros [= <- Hcmd].
  destruct (pairArgs args []) as [|ps]; [done|]. injection Hcmd as <-.
  exists (mapRange rt (env e)), ps. simpl.
  split; [apply mapRange_perm|]. split; [done|]. split; [done|].
  rewrite !length_app. unfold extraEnv. rewrite length_fmap, mapRange_size. lia.
Qed.

(** ** Arg items and plain items side by side *)

(** X19: in any argument list, an [Arg] item that the scan reaches as its
    current item is emitted as the entry [Key=Value] of its own, right
    after the entries of the items before it, and the scan goes on with the
    very next item: the [Arg] takes no neighbour as its key or its value. *)
Theorem reached_Arg_emitted (args : list any) i v :
  scans args i → args !! i = Some (AnyArg v) →
  scans args (S i) ∧
  ∃ a, pairArgs (take i args) [] = inr a ∧
       pairArgs (take (S i) args) [] = inr (a ++ [Key v +:+ "=" +:+ Value v]) ∧
       ∀ envs, pairArgs args envs =
               pairArgs (drop (S i) args) (envs ++ a ++ [Key v +:+ "=" +:+ Value v]).
Proof.
  intros Hscan Hv. split; [by eapply scans_Arg|].
  destruct (scans_take _ _ Hscan) as [a Ha]. exists a. split; [done|].
  assert (pairArgs (take (S i) args) [] = inr (a ++ [Key v +:+ "=" +:+ Value v]))
    as Ha'.
  { rewrite (take_S_r _ _ _ Hv). by rewrite (pairArgs_app _ _ _ _ Ha). }
  split; [done|]. intros envs. by apply pairArgs_from.
Qed.

(** C10: when the scan reaches a plain item [x] and the next item is an
    [Arg], the two items yield the single entry [x=Key=Value]: the [Arg] is
    printed as the value of the key [x], and the scan goes on after the
    [Arg], which gets no entry of its own. *)
Theorem Arg_after_plain_key_is_value (args : list any) i x v :
  scans args i → args !! i = Some x → plain x →
  args !! S i = Some (AnyArg v) →
  scans args (S (S i)) ∧
  ∃ a, pairArgs (take i args) [] = inr a ∧
       pairArgs (take (S (S i)) args) [] =
         inr (a ++ [Sprintf_v x +:+ "=" +:+ Key v +:+ "=" +:+ Value v]) ∧
       ∀ envs, pairArgs args envs =
               pairArgs (drop (S (S i)) args)
                 (envs ++ a ++ [Sprintf_v x +:+ "=" +:+ Key v +:+ "=" +:+ Value v]).
Proof.
  intros Hscan Hx Hplain Hv. split; [by eapply scans_pair|].
  destruct (scans_take _ _ Hscan) as [a Ha]. exists a. split; [done|].
  assert (pairArgs (take (S (S i)) args) [] =
            inr (a ++ [Sprintf_v x +:+ "=" +:+ Key v +:+ "=" +:+ Value v])) as Ha'.
  { rewrite (take_S_r _ _ _ Hv), (take_S_r _ _ _ Hx), <-(assoc_L (++)).
    rewrite (pairArgs_app _ _ _ _ Ha). by destruct x. }
  split; [done|]. intros envs. by apply pairArgs_from.
Qed.

(** ** The working directory *)

(** C9: on every [cmd] that [command] builds, [cmd.Dir] is assigned
    exactly when [e.workingDir] is not the empty string, and then holds
    [e.workingDir]; when [e.workingDir] is empty, [cmd.Dir] keeps the empty
    value [exec.CommandContext] left in it (the child then runs in the
    directory of the caller). *)
Theorem working_directory rt e script args e' cmd :
  Environment_command rt e script args = (e', inr cmd) →
  (workingDir e ≠ "" → exec.Dir cmd = workingDir e) ∧
  (workingDir e = "" →
     exec.Dir cmd = exec.Dir (exec.CommandContext (Name (shell e)) (argBuffer e'))) ∧
  (exec.Dir cmd ≠ "" ↔ workingDir e ≠ "").
Proof.
  rewrite command_spec. intros [= <- Hcmd].
  destruct (pairArgs args []) as [|ps]; [done|]. injection Hcmd as <-. simpl.
  split; [done|]. split; [|done]. by intros ->.
Qed.

(** ** The scratch buffer *)

Lemma call_spec c e w : (call c e w).1 = withArgBuffer [] e.
Proof.
  destruct c as [rt script args|rt script args]; simpl.
  - rewrite Run_spec. destruct (Environment_command _ _ _ _).2; [done|].
    by destruct (exec.Cmd_Run _ _ _).
  - rewrite Output_spec. destruct (Environment_command _ _ _ _).2; [done|].
    by destruct (exec.Cmd_Output _ _ _).
Qed.

Lemma calls_spec cs e w :
  (calls cs e w).1 = match cs with [] => e | _ => withArgBuffer [] e end.
Proof.
  revert e w. induction cs as [|c cs IH]; intros e w; [done|]. simpl.
  pose proof (call_spec c e w) as Hc. destruct (call c e w) as [e1 w1].
  simpl in Hc. subst e1. rewrite IH. by destruct cs.
Qed.

Lemma calls_idle cs e w : argBuffer e = [] → (calls cs e w).1 = e.
Proof. intros He. rewrite calls_spec. destruct cs, e; simpl in *; by subst. Qed.

Lemma NewEnvironment_idle s opts :
  Forall exported opts →
  shell (NewEnvironment s opts) = s ∧ argBuffer (NewEnvironment s opts) = [].
Proof.
  intros Hopts. unfold NewEnvironment. set (e := Build_Environment _ _ _ _ _ _).
  assert (shell e = s ∧ argBuffer e = []) as He by done.
  clearbody e. revert e He.
  induction Hopts as [|opt opts Hopt _ IH]; intros e He.
  - done.
  - simpl. apply IH. by destruct Hopt.
Qed.

(** C3: whatever the Environment and the calls made on it so far, a call
    of [Run] or of [Output] leaves the receiver as it was with an empty
    scratch buffer, both when [command] succeeds and when it fails; so
    after any sequence of calls the buffer is empty, and the invocation the
    next call builds has the argument vector of its own script alone, with
    no entry of an earlier call. *)
Theorem scratch_buffer_reset e w (cs : list Call) (c : Call) rt script args :
  (Environment_Run rt e script args w).1.1 = withArgBuffer [] e ∧
  (Environment_Output rt e script args w).1.1 = withArgBuffer [] e ∧
  argBuffer (calls (cs ++ [c]) e w).1 = [] ∧
  Environment_command rt (calls (cs ++ [c]) e w).1 script args =
    Environment_command rt (withArgBuffer [] e) script args ∧
  match (Environment_command rt (calls (cs ++ [c]) e w).1 script args).2 with
  | inl _ => True
  | inr cmd => exec.Args cmd = shellArgs (shell e) script
  end.
Proof.
  split; [apply (call_spec (CallRun rt script args))|].
  split; [apply (call_spec (CallOutput rt script args))|].
  rewrite calls_spec. destruct (cs ++ [c]) eqn:Hcs; [by destruct cs|].
  split; [done|]. split; [done|]. rewrite command_spec. simpl.
  by destruct (pairArgs args []).
Qed.

(** ** The argument vector *)

(** C7: for every shell and script, on an Environment whose buffer was
    empty when it was made (as [NewEnvironment] makes it) and after any
    calls of [Run] and [Output], [command] puts the prefix, the script and
    the suffix in the scratch buffer, whatever the arguments; for arguments
    that it accepts it builds a command whose argument vector is the name
    of the shell followed by [Prefix()], then the script, then [Suffix()],
    and [Run] runs a child with that argument vector. The shells [Bash()]
    and [Sh()] have the prefix [-c] and an empty suffix, and differ in the
    name, [bash] and [sh]. *)
Theorem shell_argument_vector e0 (cs : list Call) w rt script (args : list any) :
  argBuffer e0 = [] → scans args (length args) →
  argBuffer (Environment_command rt (calls cs e0 w).1 script args).1
    = Prefix (shell e0) ++ [script] ++ Suffix (shell e0) ∧
  (∃ e' cmd,
     Environment_command rt (calls cs e0 w).1 script args = (e', inr cmd) ∧
     exec.Args cmd
       = Name (shell e0) :: Prefix (shell e0) ++ [script] ++ Suffix (shell e0)) ∧
  (∃ req,
     spawned (Environment_Run rt (calls cs e0 w).1 script args
                (calls cs e0 w).2).1.2
       = spawned (calls cs e0 w).2 ++ [req] ∧
     iArgs req
       = Name (shell e0) :: Prefix (shell e0) ++ [script] ++ Suffix (shell e0)) ∧
  (Name Bash = "bash" ∧ Prefix Bash = ["-c"] ∧ Suffix Bash = []) ∧
  (Name Sh = "sh" ∧ Prefix Sh = ["-c"] ∧ Suffix Sh = []) ∧
  Name Bash ≠ Name Sh.
Proof.
  intros Hidle Hscan. destruct (scans_accepts args Hscan) as [ps Hps].
  rewrite calls_idle by done. rewrite Run_spec, command_spec, Hidle, Hps. simpl.
  split; [done|]. split; [by eexists _, _|]. split; [|done].
  unfold exec.Cmd_Run. simpl. eexists. by rewrite spawned_deliver.
Qed.

(** ** Output *)

(** C1, where the code departs from it: on an Environment that has a
    stdout sink, for arguments that [command] accepts, [Output] returns no
    bytes and the error "exec: Stdout already set", runs no child and
    leaves the world as it is, because [command] has set [cmd.Stdout] to
    the sink and [Cmd.Output] refuses such a command. [Run] on the same
    input runs the child. *)
Theorem Output_refused_with_stdout_sink rt e script (args : list any) w k :
  stdout e = Some k → scans args (length args) →
  Environment_Output rt e script args w
    = (withArgBuffer [] e, w, ([], Some exec.stdoutAlreadySet)) ∧
  Error exec.stdoutAlreadySet = "exec: Stdout already set" ∧
  ∃ req, spawned (Environment_Run rt e script args w).1.2 = spawned w ++ [req].
Proof.
  intros Hout Hscan. destruct (scans_accepts args Hscan) as [ps Hps].
  rewrite Output_spec, Run_spec, command_spec, Hps. simpl.
  unfold exec.Cmd_Output, exec.Cmd_Run. simpl. rewrite Hout.
  split; [done|]. split; [done|]. eexists. by rewrite spawned_deliver.
Qed.

(** ** The default Environment *)

Lemma Run_default rt script args p w l e :
  defaultEnvironment p = Some l → heap p !! l = Some e →
  Run rt script args p w =
    Some ({| heap := <[l := (Environment_Run rt e script args w).1.1]> (heap p);
             defaultEnvironment := Some l |},
          (Environment_Run rt e script args w).1.2,
          (Environment_Run rt e script args w).2).
Proof.
  intros Hl He. unfold Run. rewrite Hl. simpl. rewrite He. simpl.
  by destruct (Environment_Run _ _ _ _ _) as [[e' w'] r].
Qed.

Lemma Output_default rt script args p w l e :
  defaultEnvironment p = Some l → heap p !! l = Some e →
  Output rt script args p w =
    Some ({| heap := <[l := (Environment_Output rt e script args w).1.1]> (heap p);
             defaultEnvironment := Some l |},
          (Environment_Output rt e script args w).1.2,
          (Environment_Output rt e script args w).2).
Proof.
  intros Hl He. unfold Output. rewrite Hl. simpl. rewrite He. simpl.
  by destruct (Environment_Output _ _ _ _ _) as [[e' w'] r].
Qed.

(** C8: the default Environment is at first the one made by
    [NewEnvironment(&bash{})]. [SetDefaultEnvironment(env)] changes the
    pointer and nothing else: every Environment of the heap is as before,
    and the new default is [env] as it stands, with nothing of the former
    default. The functions [Run] and [Output] then do what the methods do
    on the Environment the pointer designates, store the receiver back
    there, and leave every other Environment unchanged. *)
Theorem SetDefaultEnvironment_swaps rt script args (p : Package) w l e :
  heap p !! l = Some e →
  let p1 := SetDefaultEnvironment (Some l) p in
  let r := Environment_Run rt e script args w in
  let o := Environment_Output rt e script args w in
  let r0 := Environment_Run rt (NewEnvironment bash []) script args w in
  let o0 := Environment_Output rt (NewEnvironment bash []) script args w in
  (defaultEnvironment init = Some 0 ∧
   heap init !! 0 = Some (NewEnvironment bash []) ∧
   shell (NewEnvironment bash []) = bash ∧
   (∃ p2, Run rt script args init w = Some (p2, r0.1.2, r0.2)) ∧
   (∃ p2, Output rt script args init w = Some (p2, o0.1.2, o0.2))) ∧
  (heap p1 = heap p ∧ defaultEnvironment p1 = Some l) ∧
  (∃ p2, Run rt script args p1 w = Some (p2, r.1.2, r.2) ∧
         defaultEnvironment p2 = Some l ∧
         heap p2 !! l = Some r.1.1 ∧
         ∀ l', l' ≠ l → heap p2 !! l' = heap p !! l') ∧
  (∃ p2, Output rt script args p1 w = Some (p2, o.1.2, o.2) ∧
         defaultEnvironment p2 = Some l ∧
         heap p2 !! l = Some o.1.1 ∧
         ∀ l', l' ≠ l → heap p2 !! l' = heap p !! l').
Proof.
  intros He p1 r o r0 o0. split.
  { repeat split; try done; eexists.
    - by apply (Run_default _ _ _ init w 0).
    - by apply (Output_default _ _ _ init w 0). }
  split; [done|]. split.
  - eexists. split; [by apply Run_default|]. simpl. split; [done|].
    split; [by rewrite lookup_insert_eq|]. intros l' Hl'.
    by rewrite lookup_insert_ne.
  - eexists. split; [by apply Output_default|]. simpl. split; [done|].
    split; [by rewrite lookup_insert_eq|]. intros l' Hl'.
    by rewrite lookup_insert_ne.
Qed.

(** * Concrete runs *)

(** [env.Run(ctx, "echo hello $WHO", "WHO", "world")] on a bash
    Environment with sinks: the command is run once, its argument vector
    is [bash -c] and the script, and its environment vector has
    [WHO=world] after the inherited environment. *)
Example Run_hello :
  Environment_Run rt0 envSinks "echo hello $WHO" [AnyString "WHO"; AnyString "world"] w0
  = (envSinks,
     {| buffers := {[ 1 := String.list_byte_of_string "hello";
                      2 := String.list_byte_of_string "oops" ]};
        spawned := [ {| iArgs := ["bash"; "-c"; "echo hello $WHO"];
                        iEnv := ["PATH=/bin"; "WHO=world"];
                        iDir := "" |} ] |},
     None).
Proof. vm_compute. reflexivity. Qed.

(** The same call through [Output]: no child, no bytes, an error. *)
Example Output_hello_with_stdout_sink :
  Environment_Output rt0 envSinks "echo hello $WHO" [AnyString "WHO"; AnyString "world"] w0
  = (envSinks, w0, ([], Some (errorString "exec: Stdout already set"))).
Proof. reflexivity. Qed.

(** The loop on the index, on an [Arg] followed by a plain pair. *)
Example pairLoop_mixed :
  pairLoop 3 [AnyArg argKV; AnyString "A"; AnyInt 1] 0 ["PATH=/bin"]
  = Some (inr ["PATH=/bin"; "K=V"; "A=1"]).
Proof. vm_compute. reflexivity. Qed.

(** Default formats of plain items. *)
Example pairArgs_formats :
  pairArgs [AnyString "N"; AnyInt (-42); AnyBool true; AnyNil] []
  = inr ["N=-42"; "true=<nil>"].
Proof. vm_compute. reflexivity. Qed.

(** An [Arg] right after a plain key with no value of its own is taken
    as that value: in the list ["A", Arg{"K", "V"}] the [Arg] is no entry
    of its own; the only entry is [A=K=V]. *)
Lemma Arg_after_plain_key_not_emitted :
  ¬ every_Arg_emitted [AnyString "A"; AnyArg argKV].
Proof.
  intros Hall. specialize (Hall ["A=K=V"] eq_refl 1 argKV eq_refl).
  apply list_elem_of_singleton in Hall. discriminate Hall.
Qed.

(** * Instances of the theorems *)

Lemma trailing_plain_item_rejected_witness :
  Environment_Run rt0 envSinks "echo $A $B"
    [AnyString "A"; AnyString "1"; AnyString "B"] w0
  = (withArgBuffer [] envSinks, w0, Some invalidArgs).
Proof.
  apply (trailing_plain_item_rejected rt0 envSinks "echo $A $B"
           [AnyString "A"; AnyString "1"; AnyString "B"] 2 (AnyString "B") w0).
  - apply (scans_pair _ 0 (AnyString "A") (AnyString "1"));
      [apply scans_start|reflexivity|exact I|reflexivity].
  - reflexivity.
  - exact I.
  - reflexivity.
Defined.

Lemma even_plain_args_pair_up_witness :
  ∃ ps cmd,
    pairLoop 4 [AnyString "A"; AnyInt 1; AnyString "B"; AnyBool false] 0 []
      = Some (inr ps) ∧
    (Environment_command rt0 envSinks "echo"
       [AnyString "A"; AnyInt 1; AnyString "B"; AnyBool false]).2 = inr cmd ∧
    exec.Env cmd = Environ rt0 ++ extraEnv rt0 envSinks ++ ps ∧
    length ps = 2 ∧
    ∀ j, j < 2 → ∃ x y,
      [AnyString "A"; AnyInt 1; AnyString "B"; AnyBool false] !! (2 * j) = Some x ∧
      [AnyString "A"; AnyInt 1; AnyString "B"; AnyBool false] !! (2 * j + 1) = Some y ∧
      ps !! j = Some (Sprintf_v x +:+ "=" +:+ Sprintf_v y).
Proof.
  apply (even_plain_args_pair_up rt0 envSinks "echo"
           [AnyString "A"; AnyInt 1; AnyString "B"; AnyBool false]).
  - repeat constructor.
  - exists 2. reflexivity.
Defined.

Lemma environment_vector_witness :
  ∃ kvs ps,
    kvs ≡ₚ map_to_list (env (NewEnvironment Sh [WithEnv {[ "PATH" := "/opt" ]}])) ∧
    pairArgs [AnyString "PATH"; AnyString "/x"; AnyArg {| Key := "PATH"; Value := "/y" |}] []
      = inr ps ∧
    ["PATH=/bin"; "PATH=/opt"; "PATH=/x"; "PATH=/y"]
      = Environ rt0 ++ (entry <$> kvs) ++ ps ∧
    4 = length (Environ rt0) + size (env (NewEnvironment Sh [WithEnv {[ "PATH" := "/opt" ]}]))
        + length ps.
Proof.
  apply (environment_vector rt0 (NewEnvironment Sh [WithEnv {[ "PATH" := "/opt" ]}])
           "echo $PATH"
           [AnyString "PATH"; AnyString "/x"; AnyArg {| Key := "PATH"; Value := "/y" |}]
           (withArgBuffer ["-c"; "echo $PATH"]
              (NewEnvironment Sh [WithEnv {[ "PATH" := "/opt" ]}]))
           {| exec.Args := ["sh"; "-c"; "echo $PATH"];
              exec.Env := ["PATH=/bin"; "PATH=/opt"; "PATH=/x"; "PATH=/y"];
              exec.Dir := ""; exec.Stdout := None; exec.Stderr := None |}).
  vm_compute. reflexivity.
Defined.

Lemma reached_Arg_emitted_witness :
  pairArgs [AnyArg argKV; AnyString "A"; AnyString "1"] []
  = pairArgs [AnyString "A"; AnyString "1"] ["K=V"].
Proof.
  destruct (reached_Arg_emitted [AnyArg argKV; AnyString "A"; AnyString "1"] 0 argKV)
    as (_ & a & Ha & _ & Hrest).
  - apply scans_start.
  - reflexivity.
  - injection Ha as <-. apply (Hrest []).
Defined.

Lemma Arg_after_plain_key_is_value_witness :
  pairArgs [AnyString "A"; AnyArg argKV; AnyString "B"; AnyString "2"] []
  = pairArgs [AnyString "B"; AnyString "2"] ["A=K=V"].
Proof.
  destruct (Arg_after_plain_key_is_value
              [AnyString "A"; AnyArg argKV; AnyString "B"; AnyString "2"]
              0 (AnyString "A") argKV) as (_ & a & Ha & _ & Hrest).
  - apply scans_start.
  - reflexivity.
  - exact I.
  - reflexivity.
  - injection Ha as <-. apply (Hrest []).
Defined.

Lemma shell_argument_vector_witness :
  ∃ e' cmd,
    Environment_command rt0
      (calls [CallRun rt0 "true" [AnyString "A"]; CallOutput rt0 "ls" []]
         envSinks w0).1
      "echo hello" [] = (e', inr cmd) ∧
    exec.Args cmd = ["bash"; "-c"; "echo hello"].
Proof.
  destruct (shell_argument_vector envSinks
              [CallRun rt0 "true" [AnyString "A"]; CallOutput rt0 "ls" []]
              w0 rt0 "echo hello" [] eq_refl (scans_start []))
    as (_ & (e' & cmd & Hcmd & Hargs) & _).
  exists e', cmd. split; [exact Hcmd|exact Hargs].
Defined.

Lemma Output_refused_with_stdout_sink_witness :
  Environment_Output rt0 envSinks "echo hello" [] w0
  = (envSinks, w0, ([], Some (errorString "exec: Stdout already set"))).
Proof.
  apply (Output_refused_with_stdout_sink rt0 envSinks "echo hello" [] w0 1
           eq_refl (scans_start [])).
Defined.

Lemma working_directory_witness :
  ∃ e' cmd,
    Environment_command rt0 (NewEnvironment Sh [WithWorkingDir "/tmp"]) "pwd" []
      = (e', inr cmd) ∧
    exec.Dir cmd = "/tmp".
Proof.
  eexists _, _. split; [reflexivity|].
  apply (working_directory rt0 (NewEnvironment Sh [WithWorkingDir "/tmp"]) "pwd" []
           _ _ eq_refl). discriminate.
Defined.

Lemma SetDefaultEnvironment_swaps_witness :
  heap (new Sh [] init).2 !! 1 = Some (NewEnvironment Sh []) ∧
  defaultEnvironment (SetDefaultEnvironment (Some 1) (new Sh [] init).2) = Some 1 ∧
  heap (SetDefaultEnvironment (Some 1) (new Sh [] init).2) = heap (new Sh [] init).2.
Proof.
  assert (heap (new Sh [] init).2 !! 1 = Some (NewEnvironment Sh [])) as Hnew
    by (vm_compute; reflexivity).
  split; [exact Hnew|].
  destruct (SetDefaultEnvironment_swaps rt0 "echo" [] (new Sh [] init).2 w0 1
              (NewEnvironment Sh []) Hnew) as (_ & [Hheap Hdefault] & _).
  split; [exact Hdefault|exact Hheap].
Defined.

(** * Further properties of the code *)

(** ** The scan of the arguments *)

Lemma scans_cons_Arg v (rest : list any) i :
  scans rest i → scans (AnyArg v :: rest) (S i).
Proof.
  induction 1 as [|i v' _ IH Hi|i x y _ IH Hx Hplain Hy].
  - apply (scans_Arg _ 0 v); [apply scans_start|done].
  - by apply (scans_Arg _ (S i) v').
  - by apply (scans_pair _ (S i) x y).
Qed.

Lemma scans_cons_pair x y (rest : list any) i :
  plain x → scans rest i → scans (x :: y :: rest) (S (S i)).
Proof.
  intros Hplain. induction 1 as [|i v' _ IH Hi|i x' y' _ IH Hx' Hplain' Hy'].
  - apply (scans_pair _ 0 x y); [apply scans_start|done..].
  - by apply (scans_Arg _ (S (S i)) v').
  - by apply (scans_pair _ (S (S i)) x' y').
Qed.

Lemma trailing_plain_fails (args : list any) i x envs :
  scans args i → args !! i = Some x → plain x → S i = length args →
  pairArgs args envs = inl invalidArgs.
Proof.
  intros Hscan Hx Hplain Hlast. destruct (scans_take _ _ Hscan) as [a Ha].
  rewrite (pairArgs_from _ i a) by done.
  rewrite (drop_S _ _ _ Hx), drop_ge by lia. by destruct x.
Qed.

Lemma pairArgs_inl (args : list any) envs err :
  pairArgs args envs = inl err →
  err = invalidArgs ∧
  ∃ i x, scans args i ∧ args !! i = Some x ∧ plain x ∧ S i = length args.
Proof.
  revert envs. induction args as [|v rest IH|x Hx|x y rest Hx IH] using scan_ind;
    intros envs Herr.
  - done.
  - simpl in Herr. destruct (IH _ Herr) as (-> & i & x & Hscan & Hi & Hplain & Hlen).
    split; [done|]. exists (S i), x.
    repeat split; [by apply scans_cons_Arg|done|done|simpl; lia].
  - assert (err = invalidArgs) as -> by (destruct x; simpl in *; congruence).
    split; [done|]. exists 0, x. repeat split; [apply scans_start|done].
  - assert (∃ envs', pairArgs rest envs' = inl err) as [envs' Hrest]
      by (destruct x; try done; simpl in Herr; eauto).
    destruct (IH _ Hrest) as (-> & i & x' & Hscan & Hi & Hplain & Hlen).
    split; [done|]. exists (S (S i)), x'.
    repeat split; [by apply scans_cons_pair|done|done|simpl; lia].
Qed.

Lemma pairArgs_inr_scans (args : list any) envs ps :
  pairArgs args envs = inr ps → scans args (length args).
Proof.
  revert envs. induction args as [|v rest IH|x Hx|x y rest Hx IH] using scan_ind;
    intros envs Hok.
  - apply scans_start.
  - simpl in *. eapply scans_cons_Arg, IH, Hok.
  - by destruct x.
  - simpl. apply scans_cons_pair; [done|].
    destruct x; try done; simpl in Hok; eapply IH, Hok.
Qed.

(** ** Arg items mixed with plain key/value pairs *)

Lemma pairArgs_items (items : list Item) envs :
  Forall plainItem items →
  pairArgs (items ≫= itemArgs) envs = inr (envs ++ (itemEntry <$> items)).
Proof.
  intros Hall. revert envs.
  induction Hall as [|it items Hit _ IH]; intros envs; simpl.
  - by rewrite (right_id_L [] (++)).
  - destruct it as [v|k v]; simpl.
    + rewrite IH. by rewrite <-(assoc_L (++)).
    + destruct Hit as [Hk Hv].
      destruct k; try done; simpl; rewrite IH; by rewrite <-(assoc_L (++)).
Qed.

Lemma items_Arg_position (items : list Item) i v :
  Forall plainItem items →
  (items ≫= itemArgs) !! i = Some (AnyArg v) →
  scans (items ≫= itemArgs) i ∧ scans (items ≫= itemArgs) (S i) ∧
  ∃ j, items !! j = Some (ItemArg v).
Proof.
  intros Hall. revert i.
  induction Hall as [|it items Hit _ IH]; intros i Hi; [done|].
  destruct it as [v0|k v0]; simpl in *.
  - destruct i as [|i]; simpl in Hi.
    + injection Hi as ->. split; [apply scans_start|].
      split; [by apply (scans_Arg _ 0 v); [apply scans_start|]|]. by exists 0.
    + destruct (IH i Hi) as (Hs & Hs' & j & Hj).
      split; [by apply scans_cons_Arg|]. split; [by apply scans_cons_Arg|].
      by exists (S j).
  - destruct Hit as [Hk Hv]. destruct i as [|[|i]]; simpl in Hi.
    + injection Hi as ->. done.
    + injection Hi as ->. done.
    + destruct (IH i Hi) as (Hs & Hs' & j & Hj).
      split; [by apply scans_cons_pair|]. split; [by apply scans_cons_pair|].
      by exists (S j).
Qed.

(** C6: for every argument list made of [Arg] items and plain key/value
    pairs in any order, the loop of [command] succeeds and emits exactly
    one entry for each item, in order: [Key=Value] for an [Arg], [k=v] for
    a pair. Every [Arg] of the list is reached by the scan as its current
    item, is an entry of its own, and advances the scan by one: it takes no
    neighbouring plain item as its key or its value. *)
Theorem mixed_items_keep_their_pairing rt e script (items : list Item) :
  Forall plainItem items →
  (∀ envs,
     pairLoop (length (items ≫= itemArgs)) (items ≫= itemArgs) 0 envs
     = Some (inr (envs ++ (itemEntry <$> items)))) ∧
  (∃ cmd,
     (Environment_command rt e script (items ≫= itemArgs)).2 = inr cmd ∧
     exec.Env cmd = Environ rt ++ extraEnv rt e ++ (itemEntry <$> items)) ∧
  every_Arg_emitted (items ≫= itemArgs) ∧
  ∀ i v, (items ≫= itemArgs) !! i = Some (AnyArg v) →
    scans (items ≫= itemArgs) i ∧ scans (items ≫= itemArgs) (S i) ∧
    ∃ j, items !! j = Some (ItemArg v) ∧
         (itemEntry <$> items) !! j = Some (Key v +:+ "=" +:+ Value v).
Proof.
  intros Hall.
  assert (∀ i v, (items ≫= itemArgs) !! i = Some (AnyArg v) →
            scans (items ≫= itemArgs) i ∧ scans (items ≫= itemArgs) (S i) ∧
            ∃ j, items !! j = Some (ItemArg v) ∧
                 (itemEntry <$> items) !! j = Some (Key v +:+ "=" +:+ Value v))
    as Hpos.
  { intros i v Hi. destruct (items_Arg_position items i v Hall Hi)
      as (Hs & Hs' & j & Hj).
    split; [done|]. split; [done|]. exists j. split; [done|].
    by rewrite list_lookup_fmap, Hj. }
  split; [|split; [|split]]; [| | |done].
  - intros envs. by rewrite pairLoop_total, pairArgs_items.
  - rewrite command_spec, pairArgs_items by done. simpl. by eexists.
  - intros ps Hps i v Hi. rewrite pairArgs_items in Hps by done.
    injection Hps as <-. destruct (Hpos i v Hi) as (_ & _ & j & _ & Hj).
    by apply list_elem_of_lookup_2 in Hj.
Qed.

(** X1: started at index 0 with at least [len(args)] iterations allowed,
    the loop of [command] always finishes: it never reads [args[i]] or
    [args[i+1]] out of range, and more iterations change nothing. *)
Theorem pairLoop_finishes fuel (args : list any) envs :
  length args ≤ fuel →
  is_Some (pairLoop fuel args 0 envs) ∧
  pairLoop fuel args 0 envs = pairLoop (length args) args 0 envs.
Proof.
  intros Hfuel. rewrite !pairLoop_pairArgs by lia. split; [by eexists|done].
Qed.

(** X2: [command] fails in one way only: its error is "invalid number of
    arguments", and it fails exactly when the scan reaches a plain item at
    the last index. *)
Theorem command_fails_only_on_trailing_plain rt e script (args : list any) err :
  (Environment_command rt e script args).2 = inl err ↔
  err = invalidArgs ∧
  ∃ i x, scans args i ∧ args !! i = Some x ∧ plain x ∧ S i = length args.
Proof.
  rewrite command_spec. simpl. split.
  - destruct (pairArgs args []) as [err'|ps] eqn:Hargs; [|done].
    intros [= <-]. by eapply pairArgs_inl.
  - intros (-> & i & x & Hscan & Hx & Hplain & Hlast).
    by rewrite (trailing_plain_fails args i x).
Qed.

(** X3: [command] succeeds exactly when the scan ends at [len(args)],
    that is, when every plain item it reaches has an item after it. *)
Theorem command_succeeds_iff_scan_ends rt e script (args : list any) :
  (∃ cmd, (Environment_command rt e script args).2 = inr cmd) ↔
  scans args (length args).
Proof.
  rewrite command_spec. simpl. split.
  - intros [cmd Hcmd]. destruct (pairArgs args []) as [|ps] eqn:Hargs; [done|].
    by eapply pairArgs_inr_scans.
  - intros Hscan. destruct (scans_take _ _ Hscan) as [a Ha].
    rewrite take_ge in Ha by lia. rewrite Ha. by eexists.
Qed.

Lemma plain_parity (args : list any) envs :
  Forall plain args →
  (∃ ps, pairArgs args envs = inr ps) ↔ Nat.Even (length args).
Proof.
  revert envs. induction args as [|v rest IH|x Hx|x y rest Hx IH] using scan_ind;
    intros envs Hall.
  - split; [by exists 0|by eexists].
  - by inversion_clear Hall.
  - split.
    + intros [ps Hps]. by destruct x.
    + intros [n Hn]. simpl in Hn. lia.
  - assert (Forall plain rest) as Hrest by (by do 2 apply Forall_cons_1, proj2 in Hall).
    simpl length. rewrite Nat.Even_succ_succ, <-(IH (envs ++ [Sprintf_v x +:+ "=" +:+ Sprintf_v y])) by done.
    by destruct x.
Qed.

(** X4: for an argument list of plain (non-[Arg]) items only, [command]
    succeeds if and only if the list has even length. *)
Theorem plain_args_accepted_iff_even rt e script (args : list any) :
  Forall plain args →
  (∃ cmd, (Environment_command rt e script args).2 = inr cmd) ↔
  Nat.Even (length args).
Proof.
  intros Hall. rewrite <-(plain_parity args [] Hall), command_spec. simpl. split.
  - intros [cmd Hcmd]. destruct (pairArgs args []); [done|by eexists].
  - intros [ps ->]. by eexists.
Qed.

Lemma pairArgs_Args (vs : list Arg) envs :
  pairArgs (AnyArg <$> vs) envs = inr (envs ++ (Arg_String <$> vs)).
Proof.
  revert envs. induction vs as [|v vs IH]; intros envs; simpl.
  - by rewrite (right_id_L [] (++)).
  - rewrite IH. by rewrite <-(assoc_L (++)).
Qed.

(** X5: an argument list of [Arg] items only is accepted whatever its
    length, and gives one entry [Key=Value] for each item, in the order of
    the list. *)
Theorem Arg_items_always_accepted rt e script (vs : list Arg) :
  ∃ cmd,
    (Environment_command rt e script (AnyArg <$> vs)).2 = inr cmd ∧
    exec.Env cmd = Environ rt ++ extraEnv rt e ++ (Arg_String <$> vs).
Proof. rewrite command_spec, pairArgs_Args. simpl. by eexists. Qed.

Lemma pairArgs_length (args : list any) envs ps :
  pairArgs args envs = inr ps →
  length ps ≤ length envs + length args ∧
  2 * length envs + length args ≤ 2 * length ps.
Proof.
  revert envs. induction args as [|v rest IH|x Hx|x y rest Hx IH] using scan_ind;
    intros envs Hok.
  - simpl in *. injection Hok as <-. lia.
  - simpl in *. apply IH in Hok. rewrite length_app in Hok. simpl in *. lia.
  - by destruct x.
  - assert (pairArgs rest (envs ++ [Sprintf_v x +:+ "=" +:+ Sprintf_v y]) = inr ps)
      as Hrest by (by destruct x).
    apply IH in Hrest. rewrite length_app in Hrest. simpl in *. lia.
Qed.

(** X6: when [command] succeeds, the arguments add at most one entry for
    each item and at least one entry for every two items to the entries of
    [os.Environ()] and [e.env]. *)
Theorem argument_entries_bounds rt e script (args : list any) e' cmd :
  Environment_command rt e script args = (e', inr cmd) →
  length (exec.Env cmd) ≤ length (Environ rt) + size (env e) + length args ∧
  2 * (length (Environ rt) + size (env e)) + length args ≤ 2 * length (exec.Env cmd).
Proof.
  rewrite command_spec. intros [= <- Hcmd].
  destruct (pairArgs args []) as [|ps] eqn:Hargs; [done|]. injection Hcmd as <-.
  apply pairArgs_length in Hargs. simpl in *.
  rewrite !length_app. unfold extraEnv. rewrite length_fmap, mapRange_size. lia.
Qed.

(** X7: where the scan reaches it, an [Arg{k, v}] and the two strings
    [k], [v] passed one after the other are interchangeable: [command]
    returns the same result for both argument lists. *)
Theorem Arg_same_as_string_pair rt e script (pre post : list any) k v a :
  pairArgs pre [] = inr a →
  Environment_command rt e script (pre ++ AnyArg {| Key := k; Value := v |} :: post)
  = Environment_command rt e script (pre ++ AnyString k :: AnyString v :: post).
Proof.
  intros Hpre. rewrite !command_spec.
  by rewrite !(pairArgs_app pre _ [] a Hpre).
Qed.

Lemma entry_inj k1 v1 k2 v2 :
  hasEquals k1 = false → hasEquals k2 = false →
  k1 +:+ "=" +:+ v1 = k2 +:+ "=" +:+ v2 → k1 = k2 ∧ v1 = v2.
Proof.
  revert k2. induction k1 as [|c1 k1 IH]; intros [|c2 k2] H1 H2 Heq;
    cbn in Heq; cbn in H1; cbn in H2.
  - injection Heq as Heq. by subst.
  - injection Heq as Hc _. subst c2. by rewrite Ascii.eqb_refl in H2.
  - injection Heq as Hc _. subst c1. by rewrite Ascii.eqb_refl in H1.
  - injection Heq as Hc Heq. subst c2.
    destruct (Ascii.eqb c1 "=") eqn:Hc; [done|].
    by destruct (IH k2 H1 H2 Heq) as [-> ->].
Qed.

(** X8: [Arg.String] is unambiguous on keys without [=]: two [Arg]s
    whose keys contain no [=] and that print the same are the same. *)
Theorem Arg_String_inj (a b : Arg) :
  hasEquals (Key a) = false → hasEquals (Key b) = false →
  Arg_String a = Arg_String b → a = b.
Proof.
  destruct a as [k1 v1], b as [k2 v2]. unfold Arg_String. simpl.
  intros H1 H2 Heq. by destruct (entry_inj _ _ _ _ H1 H2 Heq) as [-> ->].
Qed.

(** ** [command] and the scratch buffer *)

(** X9: [command] never empties the scratch buffer. It appends the
    prefix, the script and the suffix to what the buffer holds, whether the
    arguments are accepted or not, and changes nothing else of the
    receiver; a second [command] with no [cleanup] in between builds an
    argument vector that still carries the entries of the first. *)
Theorem command_accumulates rt1 rt2 e script1 args1 script2 args2 :
  let e1 := (Environment_command rt1 e script1 args1).1 in
  e1 = withArgBuffer
         (argBuffer e ++ Prefix (shell e) ++ [script1] ++ Suffix (shell e)) e ∧
  match (Environment_command rt2 e1 script2 args2).2 with
  | inl _ => True
  | inr cmd =>
      exec.Args cmd =
        Name (shell e)
        :: (argBuffer e ++ Prefix (shell e) ++ [script1] ++ Suffix (shell e))
        ++ Prefix (shell e) ++ [script2] ++ Suffix (shell e)
  end.
Proof.
  intros e1. unfold e1. rewrite !command_spec. simpl. split; [done|].
  by destruct (pairArgs args2 []).
Qed.

(** ** What Run and Output do to the world *)

(** X10: when [command] succeeds, [Run] runs the command once, with the
    argument vector, environment vector and directory of the command, and
    returns the child's error as it is, nil for exit status 0. A stdout
    sink that is not the stderr sink gets the child's standard output at
    its end, a stderr sink that is not the stdout sink gets the child's
    standard error, and one sink for both gets the chunks of both streams
    in the order the child wrote them (a sink not yet in the world counts
    as empty). *)
Theorem Run_runs_the_command rt e script args w e' cmd :
  Environment_command rt e script args = (e', inr cmd) →
  let o := Process rt (exec.invocation cmd) in
  let r := Environment_Run rt e script args w in
  r.2 = status o ∧
  spawned r.1.2 = spawned w ++ [exec.invocation cmd] ∧
  (∀ k : Writer, stdout e = Some k → stderr e ≠ Some k →
     default [] (buffers r.1.2 !! k) = default [] (buffers w !! k) ++ out o) ∧
  (∀ k : Writer, stderr e = Some k → stdout e ≠ Some k →
     default [] (buffers r.1.2 !! k) = default [] (buffers w !! k) ++ err o) ∧
  (∀ k : Writer, stdout e = Some k → stderr e = Some k →
     default [] (buffers r.1.2 !! k)
     = default [] (buffers w !! k) ++ concat (chunks o).*2).
Proof.
  intros Hcmd o r. unfold r, o. rewrite Run_spec, Hcmd. simpl.
  revert Hcmd. rewrite command_spec. intros [= _ Hcmd].
  destruct (pairArgs args []) as [|ps]; [done|]. injection Hcmd as <-.
  unfold exec.Cmd_Run. simpl. split; [done|].
  split; [by rewrite spawned_deliver|]. split; [|split].
  - intros k -> Herr. by rewrite deliver_stdout.
  - intros k -> Hout. by rewrite deliver_stderr.
  - intros k -> ->. by rewrite deliver_both.
Qed.

(** X11: [Run] writes to no buffer other than the stdout sink and the
    stderr sink of the Environment. *)
Theorem Run_writes_only_to_sinks rt e script args w (k : Writer) :
  stdout e ≠ Some k → stderr e ≠ Some k →
  buffers (Environment_Run rt e script args w).1.2 !! k = buffers w !! k.
Proof.
  intros Hout Herr. rewrite Run_spec, command_spec. simpl.
  destruct (pairArgs args []) as [|ps]; simpl; [done|].
  by rewrite deliver_lookup_ne.
Qed.

(** X12: [Output] writes to no buffer other than the stderr sink of the
    Environment; the stdout sink, if there is one, is never written. *)
Theorem Output_writes_only_to_stderr_sink rt e script args w (k : Writer) :
  stderr e ≠ Some k →
  buffers (Environment_Output rt e script args w).1.2 !! k = buffers w !! k.
Proof.
  intros Herr. rewrite Output_spec, command_spec. simpl.
  destruct (pairArgs args []) as [|ps]; simpl; [done|].
  unfold exec.Cmd_Output. simpl. destruct (stdout e); simpl; [done|].
  by rewrite deliver_lookup_ne.
Qed.


Lemma call_history c e w :
  (∃ more, spawned (call c e w).2 = spawned w ++ more ∧ length more ≤ 1) ∧
  ∀ (k : Writer) old, buffers w !! k = Some old →
    ∃ data, buffers (call c e w).2 !! k = Some (old ++ data).
Proof.
  assert (∀ (k : Writer) old, buffers w !! k = Some old →
            ∃ data, buffers w !! k = Some (old ++ data)) as Hsame.
  { intros k old ->. exists []. by rewrite (right_id_L [] (++)). }
  assert (∃ more, spawned w = spawned w ++ more ∧ length more ≤ 1) as Hnone.
  { exists []. rewrite (right_id_L [] (++)). simpl. split; [done|lia]. }
  destruct c as [rt script args|rt script args]; simpl.
  - rewrite Run_spec. destruct (Environment_command _ _ _ _).2 as [|cmd]; [done|].
    unfold exec.Cmd_Run. simpl. split.
    + eexists [_]. rewrite spawned_deliver. simpl. split; [done|lia].
    + intros k old Hold. by apply deliver_extends.
  - rewrite Output_spec. destruct (Environment_command _ _ _ _).2 as [|cmd]; [done|].
    unfold exec.Cmd_Output. destruct (exec.Stdout cmd); simpl; [done|]. split.
    + eexists [_]. rewrite spawned_deliver. simpl. split; [done|lia].
    + intros k old Hold. by apply deliver_extends.
Qed.

(** X13: over any sequence of [Run] and [Output] calls, the world only
    grows: the list of invocations gains at most one entry for each call
    and keeps the earlier ones, and every buffer keeps what it held, with
    new bytes at its end. *)
Theorem calls_only_append (cs : list Call) e w :
  (∃ more, spawned (calls cs e w).2 = spawned w ++ more ∧ length more ≤ length cs) ∧
  ∀ (k : Writer) old, buffers w !! k = Some old →
    ∃ data, buffers (calls cs e w).2 !! k = Some (old ++ data).
Proof.
  revert e w. induction cs as [|c cs IH]; intros e w.
  - simpl. split.
    + exists []. by rewrite (right_id_L [] (++)).
    + intros k old ->. exists []. by rewrite (right_id_L [] (++)).
  - simpl. destruct (call_history c e w) as [(m1 & Hm1 & Hl1) Hb1].
    destruct (call c e w) as [e1 w1]. simpl in *.
    destruct (IH e1 w1) as [(m2 & Hm2 & Hl2) Hb2]. split.
    + exists (m1 ++ m2). rewrite Hm2, Hm1, length_app, (assoc_L (++)).
      split; [done|lia].
    + intros k old Hold. destruct (Hb1 k old Hold) as [d1 Hd1].
      destruct (Hb2 k _ Hd1) as [d2 Hd2]. exists (d1 ++ d2).
      by rewrite Hd2, (assoc_L (++)).
Qed.

(** ** The environment vector, once more *)

(** X14: with no arguments [command] never fails, and adds only the
    entries of [e.env] to the result of [os.Environ()]; when [e.env] is
    empty or nil as well, the child gets the inherited environment as it
    is. *)
Theorem command_without_args rt e script :
  ∃ cmd,
    (Environment_command rt e script []).2 = inr cmd ∧
    exec.Env cmd = Environ rt ++ extraEnv rt e ∧
    (env e = ∅ → exec.Env cmd = Environ rt).
Proof.
  rewrite command_spec. simpl. eexists. split; [done|]. simpl.
  rewrite !(right_id_L [] (++)). split; [done|]. intros Hempty.
  assert (mapRange rt (env e) = []) as Hnil.
  { apply length_zero_iff_nil. by rewrite mapRange_size, Hempty, map_size_empty. }
  unfold extraEnv. rewrite Hnil. simpl. by rewrite (right_id_L [] (++)).
Qed.

(** X15: when [command] succeeds, every entry of [os.Environ()] and every
    mapping [k ↦ v] of [e.env], as the entry [k=v], is in [cmd.Env]. *)
Theorem environment_vector_complete rt e script args e' cmd :
  Environment_command rt e script args = (e', inr cmd) →
  (∀ x, x ∈ Environ rt → x ∈ exec.Env cmd) ∧
  (∀ k v, env e !! k = Some v → (k +:+ "=" +:+ v) ∈ exec.Env cmd).
Proof.
  rewrite command_spec. intros [= <- Hcmd].
  destruct (pairArgs args []) as [|ps]; [done|]. injection Hcmd as <-. simpl.
  split.
  - intros x Hx. apply elem_of_app. by left.
  - intros k v Hkv. apply elem_of_app. right. apply elem_of_app. left.
    unfold extraEnv. apply (list_elem_of_fmap_2 entry _ (k, v)).
    rewrite (mapRange_perm rt (env e)). by apply elem_of_map_to_list.
Qed.

(** ** Options *)

(** X16: [NewEnvironment] applies its options from left to right: of two
    options for the same field the later one decides, and what an option
    sets is read back from the Environment when it comes last. *)
Theorem later_option_wins s (opts : list Option) :
  (∀ a b, NewEnvironment s (opts ++ [WithStdout a; WithStdout b])
          = NewEnvironment s (opts ++ [WithStdout b]) ∧
          stdout (NewEnvironment s (opts ++ [WithStdout b])) = b) ∧
  (∀ a b, NewEnvironment s (opts ++ [WithStderr a; WithStderr b])
          = NewEnvironment s (opts ++ [WithStderr b]) ∧
          stderr (NewEnvironment s (opts ++ [WithStderr b])) = b) ∧
  (∀ a b, NewEnvironment s (opts ++ [WithEnv a; WithEnv b])
          = NewEnvironment s (opts ++ [WithEnv b]) ∧
          env (NewEnvironment s (opts ++ [WithEnv b])) = b) ∧
  (∀ a b, NewEnvironment s (opts ++ [WithWorkingDir a; WithWorkingDir b])
          = NewEnvironment s (opts ++ [WithWorkingDir b]) ∧
          workingDir (NewEnvironment s (opts ++ [WithWorkingDir b])) = b).
Proof.
  unfold NewEnvironment. repeat split; by rewrite !foldl_app.
Qed.

(** X17: an Environment made by [NewEnvironment] with options built by
    [WithStdout], [WithStderr], [WithEnv] and [WithWorkingDir] has the
    shell it was given and an empty scratch buffer, so the first command
    it builds has the argument vector of its script alone. *)
Theorem NewEnvironment_ready s (opts : list Option) rt script args :
  Forall exported opts →
  shell (NewEnvironment s opts) = s ∧
  argBuffer (NewEnvironment s opts) = [] ∧
  match (Environment_command rt (NewEnvironment s opts) script args).2 with
  | inl _ => True
  | inr cmd => exec.Args cmd = shellArgs s script
  end.
Proof.
  intros Hopts. destruct (NewEnvironment_idle s opts Hopts) as [Hshell Hbuf].
  split; [done|]. split; [done|]. rewrite command_spec, Hshell, Hbuf. simpl.
  by destruct (pairArgs args []).
Qed.

(** ** The free functions *)

Lemma withArgBuffer_idle e : argBuffer e = [] → withArgBuffer [] e = e.
Proof. destruct e. simpl. by intros ->. Qed.

(** X18: when the default Environment has an empty scratch buffer, as
    between calls, the functions [Run] and [Output] leave the package
    state as it was: the same default, the same Environments. *)
Theorem free_functions_keep_package rt script args (p : Package) w l e :
  defaultEnvironment p = Some l → heap p !! l = Some e → argBuffer e = [] →
  (∃ w' r, Run rt script args p w = Some (p, w', r)) ∧
  (∃ w' r, Output rt script args p w = Some (p, w', r)).
Proof.
  intros Hl He Hidle. split.
  - rewrite (Run_default _ _ _ _ _ l e) by done.
    pose proof (call_spec (CallRun rt script args) e w) as Hr. simpl in Hr.
    rewrite Hr, withArgBuffer_idle, insert_id by done. destruct p. simpl in *. subst. by eexists _, _.
  - rewrite (Output_default _ _ _ _ _ l e) by done.
    pose proof (call_spec (CallOutput rt script args) e w) as Hr. simpl in Hr.
    rewrite Hr, withArgBuffer_idle, insert_id by done. destruct p. simpl in *. subst. by eexists _, _.
Qed.

(** * Instances of the further properties *)

Lemma pairLoop_finishes_witness :
  is_Some (pairLoop 10 [AnyString "A"; AnyInt 1; AnyString "B"] 0 []).
Proof.
  apply (pairLoop_finishes 10 [AnyString "A"; AnyInt 1; AnyString "B"] []).
  simpl. lia.
Defined.

Lemma plain_args_accepted_iff_even_witness :
  ∃ cmd,
    (Environment_command rt0 envSinks "echo $A" [AnyString "A"; AnyInt 1]).2
    = inr cmd.
Proof.
  apply (plain_args_accepted_iff_even rt0 envSinks "echo $A"
           [AnyString "A"; AnyInt 1]).
  - repeat constructor.
  - exists 1. reflexivity.
Defined.

Lemma argument_entries_bounds_witness :
  ∃ e' cmd,
    Environment_command rt0 envSinks "echo"
      [AnyArg argKV; AnyString "A"; AnyInt 1] = (e', inr cmd) ∧
    length (exec.Env cmd) ≤ length (Environ rt0) + size (env envSinks) + 3.
Proof.
  eexists _, _. split; [reflexivity|].
  apply (argument_entries_bounds rt0 envSinks "echo"
           [AnyArg argKV; AnyString "A"; AnyInt 1] _ _ eq_refl).
Defined.

Lemma Arg_same_as_string_pair_witness :
  Environment_command rt0 envSinks "echo"
    ([AnyString "A"; AnyInt 1] ++ AnyArg argKV :: [AnyBool true; AnyNil])
  = Environment_command rt0 envSinks "echo"
      ([AnyString "A"; AnyInt 1] ++ AnyString "K" :: AnyString "V"
         :: [AnyBool true; AnyNil]).
Proof.
  apply (Arg_same_as_string_pair rt0 envSinks "echo" [AnyString "A"; AnyInt 1]
           [AnyBool true; AnyNil] "K" "V" ["A=1"]).
  reflexivity.
Defined.

Lemma Arg_String_inj_witness :
  Arg_String argKV = Arg_String {| Key := "K"; Value := "V" |} ∧
  argKV = {| Key := "K"; Value := "V" |}.
Proof.
  split; [reflexivity|].
  apply (Arg_String_inj argKV {| Key := "K"; Value := "V" |});
    reflexivity.
Defined.

Lemma Run_runs_the_command_witness :
  (Environment_Run rt0 envSinks "echo hello" [] w0).2 = None ∧
  spawned (Environment_Run rt0 envSinks "echo hello" [] w0).1.2
  = [ {| iArgs := ["bash"; "-c"; "echo hello"];
         iEnv := ["PATH=/bin"]; iDir := "" |} ].
Proof.
  destruct (Run_runs_the_command rt0 envSinks "echo hello" [] w0
              (withArgBuffer ["-c"; "echo hello"] envSinks)
              {| exec.Args := ["bash"; "-c"; "echo hello"];
                 exec.Env := ["PATH=/bin"]; exec.Dir := "";
                 exec.Stdout := Some 1; exec.Stderr := Some 2 |})
    as (Hstatus & Hspawned & _).
  - vm_compute. reflexivity.
  - split; [exact Hstatus|exact Hspawned].
Defined.


Lemma mixed_items_keep_their_pairing_witness :
  pairLoop 3 [AnyArg argKV; AnyString "A"; AnyInt 1] 0 ["PATH=/bin"]
  = Some (inr ["PATH=/bin"; "K=V"; "A=1"]).
Proof.
  destruct (mixed_items_keep_their_pairing rt0 envSinks "echo"
              [ItemArg argKV; ItemPair (AnyString "A") (AnyInt 1)])
    as (Hloop & _).
  - repeat constructor.
  - exact (Hloop ["PATH=/bin"]).
Defined.

Lemma Run_writes_only_to_sinks_witness :
  buffers (Environment_Run rt0 envSinks "echo hello" [] w0).1.2 !! 3
  = buffers w0 !! 3.
Proof.
  apply (Run_writes_only_to_sinks rt0 envSinks "echo hello" [] w0 3);
    discriminate.
Defined.

Lemma Output_writes_only_to_stderr_sink_witness :
  buffers (Environment_Output rt0 (NewEnvironment Bash [WithStderr (Some 2)])
             "echo hello" [] w0).1.2 !! 1
  = buffers w0 !! 1.
Proof.
  apply (Output_writes_only_to_stderr_sink rt0
           (NewEnvironment Bash [WithStderr (Some 2)]) "echo hello" [] w0 1).
  discriminate.
Defined.

Lemma environment_vector_complete_witness :
  env (NewEnvironment Sh [WithEnv {[ "X" := "1" ]}]) !! "X" = Some "1" ∧
  "X=1" ∈ ["PATH=/bin"; "X=1"; "K=V"].
Proof.
  assert (env (NewEnvironment Sh [WithEnv {[ "X" := "1" ]}]) !! "X" = Some "1")
    as Hx by (vm_compute; reflexivity).
  split; [exact Hx|].
  destruct (environment_vector_complete rt0
              (NewEnvironment Sh [WithEnv {[ "X" := "1" ]}]) "echo $X"
              [AnyArg argKV]
              (withArgBuffer ["-c"; "echo $X"]
                 (NewEnvironment Sh [WithEnv {[ "X" := "1" ]}]))
              {| exec.Args := ["sh"; "-c"; "echo $X"];
                 exec.Env := ["PATH=/bin"; "X=1"; "K=V"]; exec.Dir := "";
                 exec.Stdout := None; exec.Stderr := None |})
    as [_ Hmap].
  - vm_compute. reflexivity.
  - exact (Hmap "X" "1" Hx).
Defined.

Lemma NewEnvironment_ready_witness :
  shell (NewEnvironment Sh [WithStdout (Some 1); WithWorkingDir "/tmp"]) = Sh ∧
  argBuffer (NewEnvironment Sh [WithStdout (Some 1); WithWorkingDir "/tmp"]) = [].
Proof.
  destruct (NewEnvironment_ready Sh [WithStdout (Some 1); WithWorkingDir "/tmp"]
              rt0 "pwd" []) as (Hshell & Hbuf & _).
  - repeat constructor.
  - split; [exact Hshell|exact Hbuf].
Defined.

Lemma free_functions_keep_package_witness :
  ∃ w' r, Run rt0 "echo hello" [] init w0 = Some (init, w', r).
Proof.
  apply (free_functions_keep_package rt0 "echo hello" [] init w0 0
           (NewEnvironment bash [])).
  - reflexivity.
  - vm_compute. reflexivity.
  - reflexivity.
Defined.
